(** * A general purpose finite state machine library: [Define] and [Spin]

    Shallow embedding of [fsm.go].  Go's [int] values (state indices and
    inputs) are only ever stored, compared and used as map keys, never
    computed with, so they are integers [Z] without any wrap-around to write
    out.  Go maps are stdpp's [gmap].  The [context.Context] threaded through
    the actions is an abstract type [Ctx]; whatever a Go closure would
    mutate outside of its arguments lives in that context.

    The embedded mutex only serialises concurrent callers and the logger
    only renders trace lines (at the default [FatalLevel] it renders
    nothing); neither decides a result of [Define] or [Spin], so a machine
    is modelled by its table, its cursor and its two name tables.  An action
    is a total function: a [nil] action, or one that panics or does not
    return, is outside of the model. *)

From stdpp Require Import gmap strings list fin_maps pretty.
From Stdlib Require Import Ascii.

Open Scope Z_scope.

(** An Input to give to an FSM. *)
Definition Input : Type := Z.

Definition NO_INPUT : Input := -1.

(** The three error types of the library; Go's [error] interface value is
    an [option error], with [None] for [nil]. *)
Inductive error : Type :=
| InvalidInputError (StateIndex : Z) (input : Input)
| ImpossibleStateError (state : Z)
| ClashingStateError (index : Z).

(** What a Go call does: it returns, or it panics at run time. *)
Inductive exec (A : Type) : Type :=
| Returns (a : A)
| Panics.
Arguments Returns {A} a.
Arguments Panics {A}.

Section Machine.

Variable Ctx : Type.

(** An Action returns the next context and an Input, to allow for automatic
    chaining of actions. *)
Definition Action : Type := Ctx -> Ctx * Input.

Definition NO_ACTION : Action := fun ctx => (ctx, NO_INPUT).

Record Outcome : Type := mkOutcome {
  Outcome_State : Z;
  Outcome_Action : Action
}.

Record State : Type := mkState {
  Index : Z;
  Outcomes : gmap Z Outcome
}.

Record FSM : Type := mkFSM {
  states : gmap Z State;
  current : Z;
  stateNames : gmap Z string;
  inputNames : gmap Z string
}.

(** The assignment [f.current = s]. *)
Definition set_current (f : FSM) (s : Z) : FSM :=
  {| states := states f; current := s;
     stateNames := stateNames f; inputNames := inputNames f |}.

Definition getInputName (f : FSM) (input : Input) : string :=
  match inputNames f !! input with
  | Some name => name
  | None => EmptyString
  end.

Definition getStateName (f : FSM) (state : Z) : string :=
  match stateNames f !! state with
  | Some name => name
  | None => EmptyString
  end.

(** [SetLogger] replaces the two name tables. *)
Definition SetLogger (f : FSM) (sts : gmap Z string) (inputs : gmap Z string) : FSM :=
  {| states := states f; current := current f;
     stateNames := sts; inputNames := inputs |}.

(** ** Define *)

(** The [for _, s := range states] loop of [Define], building [stateMap]. *)
Fixpoint Define_loop (stateMap : gmap Z State) (sts : list State)
  : error + gmap Z State :=
  match sts with
  | [] => inr stateMap
  | s :: rest =>
      match stateMap !! Index s with
      | Some _ => inl (ClashingStateError (Index s))
      | None => Define_loop (<[Index s := s]> stateMap) rest
      end
  end.

(** [Define] returns a pointer to the new machine, or [nil], and an error.
    The slice access [states[0]] is evaluated after the loop and panics on
    an empty slice. *)
Definition Define (sts : list State) : exec (option FSM * option error) :=
  match Define_loop ∅ sts with
  | inl e => Returns (None, Some e)
  | inr stateMap =>
      match sts !! 0%nat with
      | None => Panics
      | Some s0 =>
          Returns (Some {| states := stateMap; current := Index s0;
                           stateNames := ∅; inputNames := ∅ |}, None)
      end
  end.

(** ** Spin *)

(** The loop [for i := in; i != NO_INPUT; { ... }] of [Spin].  The machine
    is mutated in place by the Go code, so it is threaded through and
    returned next to the context and the error.  The loop has no bound in
    the source: [fuel] counts the iterations the model may run, and [None]
    means that they did not suffice. *)
Fixpoint Spin (fuel : nat) (f : FSM) (ctx : Ctx) (i : Input)
  : option (FSM * Ctx * option error) :=
  if decide (i = NO_INPUT) then Some (f, ctx, None)
  else
    match fuel with
    | O => None
    | S fuel' =>
        match states f !! current f with
        | None => Some (f, ctx, Some (ImpossibleStateError (current f)))
        | Some s =>
            match Outcomes s !! i with
            | None => Some (f, ctx, Some (InvalidInputError (current f) i))
            | Some do =>
                let '(ctx', i') := Outcome_Action do ctx in
                Spin fuel' (set_current f (Outcome_State do)) ctx' i'
            end
        end
    end.

End Machine.

Arguments NO_ACTION {Ctx} ctx.
Arguments mkOutcome {Ctx} _ _.
Arguments Outcome_State {Ctx} _.
Arguments Outcome_Action {Ctx} _ _.
Arguments mkState {Ctx} _ _.
Arguments Index {Ctx} _.
Arguments Outcomes {Ctx} _.
Arguments mkFSM {Ctx} _ _ _ _.
Arguments states {Ctx} _.
Arguments current {Ctx} _.
Arguments stateNames {Ctx} _.
Arguments inputNames {Ctx} _.
Arguments set_current {Ctx} _ _.
Arguments getInputName {Ctx} _ _.
Arguments getStateName {Ctx} _ _.
Arguments SetLogger {Ctx} _ _ _.
Arguments Define_loop {Ctx} _ _.
Arguments Define {Ctx} _.
Arguments Spin {Ctx} _ _ _ _.

(** ** The outcome chain, as the specification words it

    One link of the chain: look up the current state, look up the current
    input's outcome, run its action to get the next input, move to the
    outcome's target state.  A configuration is the cursor, the context and
    the pending input. *)
Section Chain.

Context {Ctx : Type}.

Definition config : Type := Z * Ctx * Input.

Inductive link (tbl : gmap Z (State Ctx)) : config -> Outcome Ctx -> config -> Prop :=
| link_intro cur ctx i s do ctx' i' :
    i <> NO_INPUT ->
    tbl !! cur = Some s ->
    Outcomes s !! i = Some do ->
    Outcome_Action do ctx = (ctx', i') ->
    link tbl (cur, ctx, i) do (Outcome_State do, ctx', i').

(** [chain tbl c tr c'] : following the links from [c] selects the outcomes
    [tr], in this order, and arrives at [c']. *)
Inductive chain (tbl : gmap Z (State Ctx)) : config -> list (Outcome Ctx) -> config -> Prop :=
| chain_nil c : chain tbl c [] c
| chain_cons c do c' tr c'' :
    link tbl c do c' -> chain tbl c' tr c'' -> chain tbl c (do :: tr) c''.

(** The chain is stuck at a pending input that is not the sentinel: the
    cursor is no key of the table, or its state does not accept the input. *)
Inductive stuck (tbl : gmap Z (State Ctx)) : config -> error -> Prop :=
| stuck_state cur ctx i :
    i <> NO_INPUT ->
    tbl !! cur = None ->
    stuck tbl (cur, ctx, i) (ImpossibleStateError cur)
| stuck_input cur ctx i s :
    i <> NO_INPUT ->
    tbl !! cur = Some s ->
    Outcomes s !! i = None ->
    stuck tbl (cur, ctx, i) (InvalidInputError cur i).

(** The context after the actions of [tr] ran in order, from [ctx]. *)
Definition run_actions (tr : list (Outcome Ctx)) (ctx : Ctx) : Ctx :=
  foldl (fun c do => fst (Outcome_Action do c)) ctx tr.

(** The cursor after the transitions of [tr], from [cur]. *)
Definition last_target (tr : list (Outcome Ctx)) (cur : Z) : Z :=
  foldl (fun _ do => Outcome_State do) cur tr.

End Chain.

(** ** The [Error] methods

    Each of the three error types renders itself with [fmt.Sprintf]; the
    verbs [%d] and [%v] print an [int] or an [Input] in decimal, with a
    leading minus sign for a negative value, which is what [pretty] does
    on [Z]. *)
Definition Error (err : error) : string :=
  match err with
  | InvalidInputError StateIndex input =>
      "input invalid in current state.  (State: " +:+ pretty StateIndex
        +:+ ", Input: " +:+ pretty input +:+ ")"
  | ImpossibleStateError state =>
      "FSM in impossible state: " +:+ pretty state
  | ClashingStateError index =>
      "attempt to define FSM with clashing states. Index: " +:+ pretty index
  end.

(** The characters of a string, and those a decimal rendering is made of. *)
Definition chars (s : string) : list ascii := String.list_ascii_of_string s.

Definition decimal_chars : list ascii :=
  ["0"; "1"; "2"; "3"; "4"; "5"; "6"; "7"; "8"; "9"; "-"]%char.

(** ** Shapes of tables *)
Section Tables.

Context {Ctx : Type}.

(** Every outcome of the table leads to a key of the table. *)
Definition closed (tbl : gmap Z (State Ctx)) : Prop :=
  map_Forall (fun _ s =>
    map_Forall (fun _ do => is_Some (tbl !! Outcome_State do)) (Outcomes s)) tbl.

#[global] Instance closed_dec (tbl : gmap Z (State Ctx)) : Decision (closed tbl).
Proof. unfold closed. apply _. Defined.

(** Every outcome of the states leads to the index of one of them. *)
Definition targets_defined (sts : list (State Ctx)) : Prop :=
  Forall (fun s =>
    map_Forall (fun _ do => Outcome_State do ∈ Index <$> sts) (Outcomes s)) sts.

#[global] Instance targets_defined_dec (sts : list (State Ctx)) :
  Decision (targets_defined sts).
Proof. unfold targets_defined. apply _. Defined.

(** Every action of the table behaves as [NO_ACTION] does: it hands the
    context back and returns the sentinel. *)
Definition state_change_only (tbl : gmap Z (State Ctx)) : Prop :=
  map_Forall (fun _ s =>
    map_Forall (fun _ do => forall c, Outcome_Action do c = (c, NO_INPUT))
               (Outcomes s)) tbl.

(** [k] is the target state of an outcome of the table. *)
Definition is_target (tbl : gmap Z (State Ctx)) (k : Z) : Prop :=
  exists key s j do,
    tbl !! key = Some s /\ Outcomes s !! j = Some do /\ Outcome_State do = k.

(** [after_spins f0 f] : the machine [f0] has become [f] through calls of
    [Spin] that returned, with or without error, on any contexts and
    inputs. *)
Inductive after_spins (f0 : FSM Ctx) : FSM Ctx -> Prop :=
| after_none : after_spins f0 f0
| after_spin f fuel ctx i f' ctx' e :
    after_spins f0 f ->
    Spin fuel f ctx i = Some (f', ctx', e) ->
    after_spins f0 f'.

End Tables.

(** ** The tables of the test suite *)
Module Tests.

Definition test_input_1 : Input := 0.
Definition test_input_2 : Input := 1.
Definition test_input_3 : Input := 2.

Definition test_state_1 : Z := 0.
Definition test_state_2 : Z := 1.
Definition test_state_3 : Z := 2.

(** The composite literal [map[Input]Outcome{k1: o1, ...}]. *)
Definition outcomes {Ctx : Type} (l : list (Input * Outcome Ctx)) : gmap Z (Outcome Ctx) :=
  list_to_map l.

(** [TestImpossibleState] and [TestInvalidInput] share one table; state 1
    has an outcome into state 3, which is not defined. *)
Definition two_state1 {Ctx : Type} : State Ctx :=
  mkState test_state_1
    (outcomes [(test_input_1, mkOutcome test_state_2 NO_ACTION);
               (test_input_2, mkOutcome test_state_3 NO_ACTION)]).

Definition two_state2 {Ctx : Type} : State Ctx :=
  mkState test_state_2
    (outcomes [(test_input_1, mkOutcome test_state_1 NO_ACTION);
               (test_input_2, mkOutcome test_state_1 NO_ACTION)]).

(** The machine that [Define(state1, state2)] returns for this table. *)
Definition two_fsm {Ctx : Type} : FSM Ctx :=
  mkFSM (<[test_state_2 := two_state2]> (<[test_state_1 := two_state1]> ∅))
        test_state_1 ∅ ∅.

(** [TestStateClash]: a second state with the index of the first. *)
Definition clash_state2 {Ctx : Type} : State Ctx :=
  mkState test_state_1
    (outcomes [(test_input_1, mkOutcome test_state_1 NO_ACTION);
               (test_input_2, mkOutcome test_state_1 NO_ACTION)]).

(** [TestChain]: the three flags the closures set are the context. *)
Record hits : Type := mkHits {
  func1_hit : bool;
  func2_hit : bool;
  func3_hit : bool
}.

(** No function was hit yet. *)
Definition h0 : hits := mkHits false false false.

Definition func1 : Action hits :=
  fun h => (mkHits true (func2_hit h) (func3_hit h), test_input_2).
Definition func2 : Action hits :=
  fun h => (mkHits (func1_hit h) true (func3_hit h), test_input_2).
Definition func3 : Action hits :=
  fun h => (mkHits (func1_hit h) (func2_hit h) true, NO_INPUT).

Definition chain_state1 : State hits :=
  mkState test_state_1
    (outcomes [(test_input_1, mkOutcome test_state_2 func1);
               (test_input_2, mkOutcome test_state_3 func3);
               (test_input_3, mkOutcome test_state_1 NO_ACTION)]).

Definition chain_state2 : State hits :=
  mkState test_state_2
    (outcomes [(test_input_1, mkOutcome test_state_1 NO_ACTION);
               (test_input_2, mkOutcome test_state_1 func2);
               (test_input_3, mkOutcome test_state_1 NO_ACTION)]).

Definition chain_state3 : State hits :=
  mkState test_state_3
    (outcomes [(test_input_1, mkOutcome test_state_2 NO_ACTION);
               (test_input_2, mkOutcome test_state_1 NO_ACTION);
               (test_input_3, mkOutcome test_state_1 NO_ACTION)]).

(** The machine [Define(state1, state2, state3)] of [TestChain] returns. *)
Definition chain_fsm : FSM hits :=
  mkFSM (<[test_state_3 := chain_state3]>
           (<[test_state_2 := chain_state2]>
              (<[test_state_1 := chain_state1]> ∅)))
        test_state_1 ∅ ∅.

(** A chain that breaks after its first action: [func1] emits input 2,
    which the second state of this table does not accept. *)
Definition broken_state2 : State hits :=
  mkState test_state_2
    (outcomes [(test_input_1, mkOutcome test_state_1 NO_ACTION)]).

Definition broken_fsm : FSM hits :=
  mkFSM (<[test_state_2 := broken_state2]>
           (<[test_state_1 := chain_state1]> ∅))
        test_state_1 ∅ ∅.

(** A definition with a dangling target: the table of [TestChain] without
    its states 2 and 3.  [func1] moves to state 2 and emits input 2. *)
Definition dangling_fsm : FSM hits :=
  mkFSM (<[test_state_1 := chain_state1]> ∅) test_state_1 ∅ ∅.

(** A transition cycle that never returns the sentinel: the action counts
    its calls in the context and emits its own input again. *)
Definition loop_state : State nat :=
  mkState test_state_1
    (outcomes [(test_input_1,
                mkOutcome test_state_1 (fun n : nat => (S n, test_input_1)))]).

Definition loop_fsm : FSM nat :=
  mkFSM (<[test_state_1 := loop_state]> ∅) test_state_1 ∅ ∅.

End Tests.

(** * Properties of [Spin] *)
Section SpinFacts.

Context {Ctx : Type}.
Implicit Types (f : FSM Ctx) (ctx : Ctx) (i : Input) (tr : list (Outcome Ctx)).

Lemma set_current_same f : set_current f (current f) = f.
Proof. by destruct f. Qed.

Lemma set_current_twice f a b : set_current (set_current f a) b = set_current f b.
Proof. done. Qed.

(** One iteration of the loop, for an input that is not the sentinel. *)
Lemma Spin_iter fuel f ctx i :
  i <> NO_INPUT ->
  Spin (S fuel) f ctx i =
    match states f !! current f with
    | None => Some (f, ctx, Some (ImpossibleStateError (current f)))
    | Some s =>
        match Outcomes s !! i with
        | None => Some (f, ctx, Some (InvalidInputError (current f) i))
        | Some do =>
            Spin fuel (set_current f (Outcome_State do))
                 (fst (Outcome_Action do ctx)) (snd (Outcome_Action do ctx))
        end
    end.
Proof.
  intros Hi. simpl. case_decide; [done|].
  destruct (states f !! current f) as [s|]; [|done].
  destruct (Outcomes s !! i) as [do|]; [|done].
  by destruct (Outcome_Action do ctx).
Qed.

Lemma Spin_stop fuel f ctx : Spin fuel f ctx NO_INPUT = Some (f, ctx, None).
Proof. by destruct fuel. Qed.

(** More fuel never changes a result. *)
Lemma Spin_fuel_mono fuel fuel' f ctx i r :
  Spin fuel f ctx i = Some r -> (fuel <= fuel')%nat -> Spin fuel' f ctx i = Some r.
Proof.
  revert fuel' f ctx i. induction fuel as [|n IH]; intros fuel' f ctx i Hr Hle.
  - destruct (decide (i = NO_INPUT)) as [->|Hi].
    + by rewrite Spin_stop in Hr |- *.
    + simpl in Hr. by case_decide.
  - destruct (decide (i = NO_INPUT)) as [->|Hi].
    + by rewrite Spin_stop in Hr |- *.
    + destruct fuel' as [|m]; [lia|].
      rewrite Spin_iter in Hr |- * by done.
      destruct (states f !! current f) as [s|]; [|done].
      destruct (Outcomes s !! i) as [do|]; [|done].
      apply IH; [done|lia].
Qed.

(** The result does not depend on the fuel that was enough for it. *)
Lemma Spin_deterministic fuel fuel' f ctx i r r' :
  Spin fuel f ctx i = Some r -> Spin fuel' f ctx i = Some r' -> r = r'.
Proof.
  intros Hr Hr'. destruct (Nat.le_ge_cases fuel fuel') as [Hle|Hle].
  - apply (Spin_fuel_mono _ _ _ _ _ _ Hr) in Hle. congruence.
  - apply (Spin_fuel_mono _ _ _ _ _ _ Hr') in Hle. congruence.
Qed.

(** A transition whose action returns the sentinel ends the call, whether
    its target state is a key of the table or not. *)
Lemma Spin_single_transition fuel f ctx i s do ctx' :
  i <> NO_INPUT ->
  states f !! current f = Some s ->
  Outcomes s !! i = Some do ->
  Outcome_Action do ctx = (ctx', NO_INPUT) ->
  Spin (S fuel) f ctx i = Some (set_current f (Outcome_State do), ctx', None).
Proof.
  intros Hi Hs Hdo Hact. rewrite Spin_iter by done.
  rewrite Hs, Hdo, Hact. apply Spin_stop.
Qed.

(** [Spin] never touches the table or the name tables. *)
Lemma Spin_frame fuel f ctx i f' ctx' e :
  Spin fuel f ctx i = Some (f', ctx', e) -> f' = set_current f (current f').
Proof.
  revert f ctx i. induction fuel as [|n IH]; intros f ctx i Hr.
  - simpl in Hr. case_decide; [|done]. simplify_eq. by rewrite set_current_same.
  - destruct (decide (i = NO_INPUT)) as [->|Hi].
    + rewrite Spin_stop in Hr. simplify_eq. by rewrite set_current_same.
    + rewrite Spin_iter in Hr by done.
      destruct (states f !! current f) as [s|];
        [|simplify_eq; by rewrite set_current_same].
      destruct (Outcomes s !! i) as [do|];
        [|simplify_eq; by rewrite set_current_same].
      apply IH in Hr. by rewrite Hr at 1.
Qed.

End SpinFacts.

(** * The chain and the loop *)
Section ChainFacts.

Context {Ctx : Type}.
Implicit Types (f : FSM Ctx) (ctx : Ctx) (i : Input) (tr : list (Outcome Ctx)).
Implicit Types (tbl : gmap Z (State Ctx)) (c : @config Ctx).

Lemma run_actions_snoc tr (do : Outcome Ctx) ctx :
  run_actions (tr ++ [do]) ctx = fst (Outcome_Action do (run_actions tr ctx)).
Proof. unfold run_actions. by rewrite foldl_app. Qed.

Lemma last_target_snoc tr (do : Outcome Ctx) cur :
  last_target (tr ++ [do]) cur = Outcome_State do.
Proof. unfold last_target. by rewrite foldl_app. Qed.

Lemma link_deterministic tbl c do1 do2 c1 c2 :
  link tbl c do1 c1 -> link tbl c do2 c2 -> do1 = do2 /\ c1 = c2.
Proof.
  intros H1 H2.
  inversion H1 as [? ? ? s1 ? ? ? Hi1 Hs1 Hd1 Ha1]; subst.
  inversion H2 as [? ? ? s2 ? ? ? Hi2 Hs2 Hd2 Ha2]; subst.
  rewrite Hs1 in Hs2. injection Hs2 as <-.
  rewrite Hd1 in Hd2. injection Hd2 as <-.
  rewrite Ha1 in Ha2. by injection Ha2 as <- <-.
Qed.

Lemma chain_app_inv tbl tr1 tr2 c c'' :
  chain tbl c (tr1 ++ tr2) c'' ->
  exists c', chain tbl c tr1 c' /\ chain tbl c' tr2 c''.
Proof.
  revert c. induction tr1 as [|do tr1 IH]; intros c H; simpl in H.
  - exists c. split; [constructor|done].
  - inversion H as [|? ? c1 ? ? Hl Hc]; subst.
    destruct (IH _ Hc) as (c' & Hc1 & Hc2).
    exists c'. split; [by econstructor|done].
Qed.

Lemma chain_snoc tbl tr do c c' c'' :
  chain tbl c tr c' -> link tbl c' do c'' -> chain tbl c (tr ++ [do]) c''.
Proof.
  induction 1 as [|? ? ? ? ? Hl Hc IH]; intros Hd; simpl.
  - econstructor; [done|constructor].
  - econstructor; [done|by apply IH].
Qed.

(** Where a chain arrives is a function of the outcomes it selected. *)
Lemma chain_arrives tbl tr cur ctx i cur' ctx' i' :
  chain tbl (cur, ctx, i) tr (cur', ctx', i') ->
  cur' = last_target tr cur /\ ctx' = run_actions tr ctx.
Proof.
  revert cur ctx i. induction tr as [|do tr IH]; intros cur ctx i H.
  - inversion H; subst. done.
  - inversion H as [|? ? c1 ? ? Hl Hc]; subst.
    inversion Hl as [? ? ? s ? ctx1 i1 Hi Hs Hdo Hact]; subst.
    apply IH in Hc as [-> ->]. simpl. by rewrite Hact.
Qed.

(** The loop follows the chain, one iteration per link. *)
Lemma Spin_chain fuel f ctx i tr cur' ctx' i' :
  chain (states f) (current f, ctx, i) tr (cur', ctx', i') ->
  Spin (length tr + fuel) f ctx i = Spin fuel (set_current f cur') ctx' i'.
Proof.
  revert f ctx i. induction tr as [|do tr IH]; intros f ctx i H.
  - inversion H; subst. by rewrite set_current_same.
  - inversion H as [|? ? c1 ? ? Hl Hc]; subst.
    inversion Hl as [? ? ? s ? ctx1 i1 Hi Hs Hdo Hact]; subst.
    change (length (do :: tr) + fuel)%nat with (S (length tr + fuel)).
    rewrite Spin_iter by done. rewrite Hs, Hdo, Hact. simpl.
    by rewrite (IH (set_current f (Outcome_State do)) ctx1 i1 Hc).
Qed.

(** The loop stops with the error of a stuck configuration. *)
Lemma Spin_stuck fuel f ctx i e :
  stuck (states f) (current f, ctx, i) e ->
  Spin (S fuel) f ctx i = Some (f, ctx, Some e).
Proof.
  inversion 1 as [? ? ? Hi Hs|? ? ? s Hi Hs Hdo]; subst;
    rewrite Spin_iter by done; rewrite Hs; [done|by rewrite Hdo].
Qed.

(** Every result of the loop comes from a chain: the outcomes it selected,
    and the pending input at which it stopped. *)
Lemma Spin_inv fuel f ctx i f' ctx' e :
  Spin fuel f ctx i = Some (f', ctx', e) ->
  exists tr j,
    chain (states f) (current f, ctx, i) tr (current f', ctx', j) /\
    f' = set_current f (current f') /\
    match e with
    | None => j = NO_INPUT
    | Some err => stuck (states f) (current f', ctx', j) err
    end.
Proof.
  revert f ctx i. induction fuel as [|n IH]; intros f ctx i Hr.
  - simpl in Hr. case_decide; [|done]. simplify_eq.
    exists [], NO_INPUT. split; [constructor|]. by rewrite set_current_same.
  - destruct (decide (i = NO_INPUT)) as [->|Hi].
    { rewrite Spin_stop in Hr. simplify_eq.
      exists [], NO_INPUT. split; [constructor|]. by rewrite set_current_same. }
    rewrite Spin_iter in Hr by done.
    destruct (states f !! current f) as [s|] eqn:Hs.
    2:{ simplify_eq. exists [], i. split; [constructor|].
        rewrite set_current_same. split; [done|]. by constructor. }
    destruct (Outcomes s !! i) as [do|] eqn:Hdo.
    2:{ simplify_eq. exists [], i. split; [constructor|].
        rewrite set_current_same. split; [done|]. by econstructor. }
    destruct (IH _ _ _ Hr) as (tr & j & Hc & Hf & He). simpl in *.
    exists (do :: tr), j. split; [|split; [by rewrite Hf at 1|done]].
    econstructor; [|exact Hc].
    constructor 1 with (s := s); [done..|]. by destruct (Outcome_Action do ctx).
Qed.

End ChainFacts.

(** * The claims about [Spin] *)
Section SpinClaims.

Context {Ctx : Type}.
Implicit Types (f : FSM Ctx) (ctx : Ctx) (i : Input) (tr : list (Outcome Ctx)).

(** C1: when following the outcome chain from the cursor and the initial
    input reaches the sentinel without error, selecting the outcomes [tr],
    [Spin] returns after [length tr] iterations (any larger fuel gives the
    same result) with no error, and the cursor is the target state of the
    last outcome of [tr], whose action produced the sentinel; the table and
    the name tables are as before. *)
Theorem Spin_terminates_at_last_target f ctx i tr cur' ctx' :
  chain (states f) (current f, ctx, i) tr (cur', ctx', NO_INPUT) ->
  (forall extra,
      Spin (length tr + extra) f ctx i = Some (set_current f cur', ctx', None)) /\
  match last tr with
  | Some do =>
      cur' = Outcome_State do /\
      Outcome_Action do (run_actions (removelast tr) ctx) = (ctx', NO_INPUT)
  | None => cur' = current f /\ ctx' = ctx /\ i = NO_INPUT
  end.
Proof.
  intros Hc. split.
  - intros extra. rewrite (Spin_chain _ _ _ _ _ _ _ _ Hc). apply Spin_stop.
  - destruct (last tr) as [do|] eqn:Hlast.
    + apply last_Some in Hlast as [tr0 ->].
      rewrite removelast_last.
      apply chain_app_inv in Hc as ([[cur1 ctx1] i1] & Hc0 & Hc1).
      apply chain_arrives in Hc0 as [_ <-].
      inversion Hc1 as [|? ? c1 ? ? Hl Hn]; subst.
      inversion Hn; subst.
      inversion Hl; subst. done.
    + apply last_None in Hlast as ->. inversion Hc; subst. done.
Qed.

(** C2: when [Spin] returns an error, the outcomes [tr] selected before the
    failure form a chain from the initial configuration to the
    configuration that is stuck with that error; the cursor is the one the
    transitions of [tr] left (the initial cursor when [tr] is empty), and
    the returned context is the one the actions of [tr] produced (the
    input context when [tr] is empty). *)
Theorem Spin_error_keeps_progress fuel f ctx i f' ctx' err :
  Spin fuel f ctx i = Some (f', ctx', Some err) ->
  exists tr j,
    chain (states f) (current f, ctx, i) tr (current f', ctx', j) /\
    stuck (states f) (current f', ctx', j) err /\
    f' = set_current f (last_target tr (current f)) /\
    ctx' = run_actions tr ctx.
Proof.
  intros Hr. destruct (Spin_inv _ _ _ _ _ _ _ Hr) as (tr & j & Hc & Hf & He).
  exists tr, j. destruct (chain_arrives _ _ _ _ _ _ _ _ Hc) as [Hcur Hctx].
  split; [done|]. split; [done|]. split; [|done]. by rewrite <- Hcur.
Qed.

(** C3: a non-sentinel input that the current state does not accept makes
    [Spin] fail in its first iteration with [InvalidInputError] carrying
    the cursor and that input; machine and context are returned as given. *)
Theorem Spin_invalid_input fuel f ctx i s :
  i <> NO_INPUT ->
  states f !! current f = Some s ->
  Outcomes s !! i = None ->
  Spin (S fuel) f ctx i = Some (f, ctx, Some (InvalidInputError (current f) i)).
Proof. intros Hi Hs Hdo. apply Spin_stuck. by econstructor. Qed.

(** C4: when the cursor is no key of the table, [Spin] with a non-sentinel
    input fails in its first iteration with [ImpossibleStateError] carrying
    the cursor; machine and context are returned as given. *)
Theorem Spin_impossible_state fuel f ctx i :
  i <> NO_INPUT ->
  states f !! current f = None ->
  Spin (S fuel) f ctx i = Some (f, ctx, Some (ImpossibleStateError (current f))).
Proof. intros Hi Hs. apply Spin_stuck. by constructor. Qed.

(** C10: [Spin] with the sentinel runs no iteration (no fuel is needed) and
    returns the machine and the context as given, with no error, whatever
    the cursor is. *)
Theorem Spin_no_input fuel f ctx :
  Spin fuel f ctx NO_INPUT = Some (f, ctx, None).
Proof. destruct fuel; reflexivity. Qed.

End SpinClaims.

(** * Properties of [Define] *)
Section DefineFacts.

Context {Ctx : Type}.
Implicit Types (s : State Ctx) (sts pre post : list (State Ctx)).
Implicit Types (m : gmap Z (State Ctx)).

Lemma elem_of_Index s sts : s ∈ sts -> Index s ∈ Index <$> sts.
Proof. intros H. apply list_elem_of_fmap. by exists s. Qed.

(** The loop succeeds on states with distinct indices that are all new to
    the table, and adds exactly them. *)
Lemma Define_loop_distinct m sts :
  NoDup (Index <$> sts) ->
  (forall s, s ∈ sts -> m !! Index s = None) ->
  exists m',
    Define_loop m sts = inr m' /\
    (forall s, s ∈ sts -> m' !! Index s = Some s) /\
    (forall k, k ∉ Index <$> sts -> m' !! k = m !! k).
Proof.
  revert m. induction sts as [|s0 rest IH]; intros m Hnd Hnew.
  - exists m. split; [done|]. split; [|done]. intros s Hs. by apply elem_of_nil in Hs.
  - rewrite fmap_cons in Hnd. apply NoDup_cons in Hnd as [Hs0 Hnd].
    cbn [Define_loop]. rewrite (Hnew s0) by left.
    destruct (IH (<[Index s0 := s0]> m) Hnd) as (m' & Hloop & Hin & Hout).
    { intros s Hs. rewrite lookup_insert_ne.
      - apply Hnew. by right.
      - intros Heq. apply Hs0. rewrite Heq. by apply elem_of_Index. }
    exists m'. split; [done|]. split.
    + intros s Hs. apply elem_of_cons in Hs as [->|Hs]; [|by apply Hin].
      rewrite Hout by done. apply lookup_insert_eq.
    + intros k Hk. rewrite fmap_cons in Hk. apply not_elem_of_cons in Hk as [Hk0 Hk].
      rewrite Hout by done. by rewrite lookup_insert_ne.
Qed.

(** The loop fails at the first state whose index is already in the table:
    an index of the table it started from, or of an earlier state. *)
Lemma Define_loop_clash m sts :
  ~ NoDup (Index <$> sts) \/ (exists s, s ∈ sts /\ is_Some (m !! Index s)) ->
  exists pre s post,
    sts = pre ++ s :: post /\
    NoDup (Index <$> pre) /\
    (forall x, x ∈ pre -> m !! Index x = None) /\
    (is_Some (m !! Index s) \/ Index s ∈ Index <$> pre) /\
    Define_loop m sts = inl (ClashingStateError (Index s)).
Proof.
  revert m. induction sts as [|s0 rest IH]; intros m H.
  - exfalso. destruct H as [H|(s & Hs & _)].
    + apply H. constructor.
    + by apply elem_of_nil in Hs.
  - cbn [Define_loop]. destruct (m !! Index s0) as [old|] eqn:Hs0.
    { exists [], s0, rest. split; [done|]. split; [constructor|].
      split; [by intros x Hx%elem_of_nil|]. split; [|done]. left. by rewrite Hs0. }
    destruct (IH (<[Index s0 := s0]> m)) as (pre & s & post & -> & Hnd & Hnew & Hwhy & Hloop).
    { destruct (decide (NoDup (Index <$> rest))) as [Hnd|Hnd]; [|by left]. right.
      destruct H as [H|(s & Hs & Hsome)].
      - destruct (decide (Index s0 ∈ Index <$> rest)) as [Hin|Hin].
        + apply list_elem_of_fmap in Hin as (s & Heq & Hs).
          exists s. split; [done|]. rewrite <- Heq, lookup_insert_eq. by eexists.
        + exfalso. apply H. rewrite fmap_cons. by apply NoDup_cons.
      - apply elem_of_cons in Hs as [->|Hs].
        + rewrite Hs0 in Hsome. by destruct Hsome.
        + exists s. split; [done|].
          destruct (decide (Index s0 = Index s)) as [Heq|Hne].
          * rewrite Heq, lookup_insert_eq. by eexists.
          * by rewrite lookup_insert_ne. }
    exists (s0 :: pre), s, post. split; [done|].
    assert (Hfresh : Index s0 ∉ Index <$> pre).
    { intros Hin. apply list_elem_of_fmap in Hin as (x & Heq & Hx).
      specialize (Hnew x Hx). rewrite <- Heq, lookup_insert_eq in Hnew. done. }
    split; [rewrite fmap_cons; by apply NoDup_cons|]. split.
    + intros x Hx. apply elem_of_cons in Hx as [->|Hx]; [done|].
      specialize (Hnew x Hx). by apply lookup_insert_None in Hnew as [? _].
    + split; [|done]. rewrite fmap_cons.
      destruct (decide (Index s0 = Index s)) as [Heq|Hne].
      * right. rewrite Heq. left.
      * destruct Hwhy as [Hsome|Hin]; [|right; by right].
        left. by rewrite lookup_insert_ne in Hsome.
Qed.

End DefineFacts.

(** * The claims about [Define] *)
Section DefineClaims.

Context {Ctx : Type}.
Implicit Types (s : State Ctx) (sts pre post : list (State Ctx)).

(** C5: when two of the states share an index, [Define] returns no machine
    and a [ClashingStateError]; the states are processed in input order, and
    the error carries the index of the first state whose index is the index
    of an earlier state. *)
Theorem Define_clashing_states sts :
  ~ NoDup (Index <$> sts) ->
  exists pre s post,
    sts = pre ++ s :: post /\
    NoDup (Index <$> pre) /\
    Index s ∈ Index <$> pre /\
    Define sts = Returns (None, Some (ClashingStateError (Index s))).
Proof.
  intros Hdup.
  destruct (Define_loop_clash ∅ sts) as (pre & s & post & Heq & Hnd & _ & Hwhy & Hloop);
    [by left|].
  exists pre, s, post. split; [done|]. split; [done|]. split.
  - destruct Hwhy as [Hsome|Hin]; [|done].
    rewrite lookup_empty in Hsome. by destruct Hsome.
  - unfold Define. by rewrite Hloop.
Qed.

(** C6: for a non-empty list of states with pairwise distinct indices,
    [Define] returns a machine and no error; the table maps the index of
    each supplied state to that state and holds no other key, the cursor is
    the index of the first state, and the name tables are empty. *)
Theorem Define_distinct_states s0 rest :
  NoDup (Index <$> s0 :: rest) ->
  exists f,
    Define (s0 :: rest) = Returns (Some f, None) /\
    (forall s, s ∈ s0 :: rest -> states f !! Index s = Some s) /\
    (forall k, k ∉ Index <$> s0 :: rest -> states f !! k = None) /\
    current f = Index s0 /\
    stateNames f = ∅ /\ inputNames f = ∅.
Proof.
  intros Hnd.
  destruct (Define_loop_distinct ∅ (s0 :: rest) Hnd) as (m' & Hloop & Hin & Hout);
    [intros; apply lookup_empty|].
  exists (mkFSM m' (Index s0) ∅ ∅). split.
  - unfold Define. by rewrite Hloop.
  - split; [done|]. split; [|done].
    intros k Hk. cbn [states]. rewrite (Hout k Hk). apply lookup_empty.
Qed.

(** C9: [Define] of no state at all panics at [states[0]] instead of
    returning anything; of at least one state it never panics. *)
Theorem Define_empty_panics :
  @Define Ctx [] = Panics /\
  forall s0 rest, Define (s0 :: rest) <> Panics.
Proof.
  split; [reflexivity|].
  intros s0 rest. unfold Define.
  by destruct (Define_loop ∅ (s0 :: rest)).
Qed.

(** C7: state [s1] maps input [A] to ([s2], an action that returns input
    [B]) and state [s2] maps input [B] to ([s1], an action that returns
    the sentinel).  On the machine defined from the two, one [Spin] with
    [A] needs two iterations, returns no error with the cursor at [s1]
    again, and its context went through both actions in order. *)
Theorem Spin_two_state_chain (s1 s2 : Z) (A B : Input) (g1 g2 : Ctx -> Ctx) :
  s1 <> s2 -> A <> NO_INPUT -> B <> NO_INPUT ->
  exists f,
    Define [mkState s1 {[A := mkOutcome s2 (fun c => (g1 c, B))]};
            mkState s2 {[B := mkOutcome s1 (fun c => (g2 c, NO_INPUT))]}]
      = Returns (Some f, None) /\
    current f = s1 /\
    forall ctx,
      Spin 1 f ctx A = None /\
      forall extra, Spin (2 + extra) f ctx A = Some (f, g2 (g1 ctx), None).
Proof.
  intros Hs HA HB. eexists. split.
  { unfold Define. cbn [Define_loop Index].
    rewrite lookup_empty, lookup_insert_ne, lookup_empty by done. reflexivity. }
  split; [done|]. intros ctx. split.
  - rewrite Spin_iter by done. cbn [states current].
    rewrite lookup_insert_ne, lookup_insert_eq by done. cbn [Outcomes].
    rewrite lookup_singleton_eq. cbn. by case_decide.
  - intros extra. change (2 + extra)%nat with (S (S extra)).
    rewrite Spin_iter by done. cbn [states current].
    rewrite lookup_insert_ne, lookup_insert_eq by done. cbn [Outcomes].
    rewrite lookup_singleton_eq. cbn [Outcome_Action Outcome_State fst snd].
    rewrite Spin_iter by done. cbn [states current set_current].
    rewrite lookup_insert_eq. cbn [Outcomes].
    rewrite lookup_singleton_eq. cbn [Outcome_Action Outcome_State fst snd].
    apply Spin_stop.
Qed.

(** C8: [Define] accepts the two states of [TestImpossibleState], although
    state 1 has an outcome into state 3, which is not in the table.  One
    [Spin] of the fresh machine with input 2 returns no error and leaves
    the cursor at 3, no key of the table; any later [Spin] with an input
    other than the sentinel fails with [ImpossibleStateError 3]. *)
Theorem Define_accepts_undefined_target :
  Define [Tests.two_state1; Tests.two_state2]
    = Returns (Some (@Tests.two_fsm Ctx), None) /\
  states (@Tests.two_fsm Ctx) !! Tests.test_state_3 = None /\
  forall (ctx : Ctx) fuel,
    Spin (S fuel) Tests.two_fsm ctx Tests.test_input_2
      = Some (set_current Tests.two_fsm Tests.test_state_3, ctx, None) /\
    forall j,
      Spin (S fuel) (set_current Tests.two_fsm Tests.test_state_3) ctx j
        = Some (set_current Tests.two_fsm Tests.test_state_3, ctx,
                if decide (j = NO_INPUT) then None
                else Some (ImpossibleStateError Tests.test_state_3)).
Proof.
  split; [reflexivity|]. split; [reflexivity|].
  intros ctx fuel. split.
  - rewrite Spin_iter by done. cbn. apply Spin_stop.
  - intros j. case_decide as Hj.
    + subst j. apply Spin_stop.
    + by rewrite Spin_iter.
Qed.

End DefineClaims.

(** * The claims on the tables of the test suite *)
Section Witnesses.

Import Tests.

(** [Define] on the three states of [TestChain]. *)
Example Define_chain_fsm :
  Define [chain_state1; chain_state2; chain_state3] = Returns (Some chain_fsm, None).
Proof. reflexivity. Qed.

(** [TestChain]: the state chain goes 1 -> 2 -> 1 -> 3 and all three
    functions are hit. *)
Lemma Spin_terminates_at_last_target_witness :
  chain (states chain_fsm) (current chain_fsm, h0, test_input_1)
        [mkOutcome test_state_2 func1; mkOutcome test_state_1 func2;
         mkOutcome test_state_3 func3]
        (test_state_3, mkHits true true true, NO_INPUT) /\
  Spin 3 chain_fsm h0 test_input_1
    = Some (set_current chain_fsm test_state_3, mkHits true true true, None).
Proof.
  assert (Hc : chain (states chain_fsm) (current chain_fsm, h0, test_input_1)
                 [mkOutcome test_state_2 func1; mkOutcome test_state_1 func2;
                  mkOutcome test_state_3 func3]
                 (test_state_3, mkHits true true true, NO_INPUT)).
  { eapply chain_cons.
    { apply (link_intro _ test_state_1 h0 test_input_1 chain_state1
               (mkOutcome test_state_2 func1)); [done|reflexivity..]. }
    eapply chain_cons.
    { apply (link_intro _ test_state_2 _ test_input_2 chain_state2
               (mkOutcome test_state_1 func2)); [done|reflexivity..]. }
    eapply chain_cons.
    { apply (link_intro _ test_state_1 _ test_input_2 chain_state1
               (mkOutcome test_state_3 func3)); [done|reflexivity..]. }
    apply chain_nil. }
  split; [exact Hc|].
  exact (proj1 (Spin_terminates_at_last_target _ _ _ _ _ _ Hc) 0%nat).
Defined.

(** The broken chain fails in state 2, after [func1] ran. *)
Lemma Spin_error_keeps_progress_witness :
  Spin 5 broken_fsm h0 test_input_1
    = Some (set_current broken_fsm test_state_2, mkHits true false false,
            Some (InvalidInputError test_state_2 test_input_2)) /\
  exists tr j,
    chain (states broken_fsm) (current broken_fsm, h0, test_input_1) tr
          (test_state_2, mkHits true false false, j) /\
    stuck (states broken_fsm) (test_state_2, mkHits true false false, j)
          (InvalidInputError test_state_2 test_input_2) /\
    set_current broken_fsm test_state_2
      = set_current broken_fsm (last_target tr (current broken_fsm)) /\
    mkHits true false false = run_actions tr h0.
Proof.
  assert (Hr : Spin 5 broken_fsm h0 test_input_1
                 = Some (set_current broken_fsm test_state_2, mkHits true false false,
                         Some (InvalidInputError test_state_2 test_input_2)))
    by reflexivity.
  split; [exact Hr|].
  exact (Spin_error_keeps_progress _ _ _ _ _ _ _ Hr).
Defined.

(** [TestInvalidInput]: input 3 in state 1 of the two-state table. *)
Lemma Spin_invalid_input_witness :
  Spin 1 (@two_fsm unit) tt test_input_3
    = Some (two_fsm, tt, Some (InvalidInputError test_state_1 test_input_3)).
Proof.
  apply (Spin_invalid_input 0 two_fsm tt test_input_3 two_state1);
    [done|reflexivity|reflexivity].
Defined.

(** [TestImpossibleState]: the cursor is put on state 3 by hand. *)
Lemma Spin_impossible_state_witness :
  Spin 1 (set_current (@two_fsm unit) test_state_3) tt test_input_1
    = Some (set_current two_fsm test_state_3, tt,
            Some (ImpossibleStateError test_state_3)).
Proof.
  apply (Spin_impossible_state 0 (set_current two_fsm test_state_3) tt test_input_1);
    [done|reflexivity].
Defined.

(** [TestStateClash]: two states with index 0. *)
Lemma Define_clashing_states_witness :
  ~ NoDup (Index <$> [@two_state1 unit; clash_state2]) /\
  exists pre s post,
    [@two_state1 unit; clash_state2] = pre ++ s :: post /\
    NoDup (Index <$> pre) /\
    Index s ∈ Index <$> pre /\
    Define [@two_state1 unit; clash_state2]
      = Returns (None, Some (ClashingStateError (Index s))).
Proof.
  assert (Hdup : ~ NoDup (Index <$> [@two_state1 unit; clash_state2])).
  { intros Hnd. apply NoDup_cons in Hnd as [Hnotin _]. apply Hnotin. left. }
  split; [exact Hdup|].
  exact (Define_clashing_states _ Hdup).
Defined.

(** The two-state table has distinct indices. *)
Lemma Define_distinct_states_witness :
  NoDup (Index <$> [@two_state1 unit; two_state2]) /\
  exists f,
    Define [@two_state1 unit; two_state2] = Returns (Some f, None) /\
    (forall s, s ∈ [@two_state1 unit; two_state2] -> states f !! Index s = Some s) /\
    (forall k, k ∉ Index <$> [@two_state1 unit; two_state2] -> states f !! k = None) /\
    current f = test_state_1 /\
    stateNames f = ∅ /\ inputNames f = ∅.
Proof.
  assert (Hnd : NoDup (Index <$> [@two_state1 unit; two_state2])).
  { apply NoDup_cons. split.
    - intros Hin. apply list_elem_of_singleton in Hin. discriminate Hin.
    - apply NoDup_singleton. }
  split; [exact Hnd|].
  exact (Define_distinct_states _ _ Hnd).
Defined.

(** States 1 and 2, inputs 0 and 1, and actions that log their number. *)
Lemma Spin_two_state_chain_witness :
  exists f,
    Define [mkState 1 {[0 := mkOutcome 2 (fun c : list nat => (1%nat :: c, 1))]};
            mkState 2 {[1 := mkOutcome 1 (fun c : list nat => (2%nat :: c, NO_INPUT))]}]
      = Returns (Some f, None) /\
    current f = 1 /\
    forall ctx,
      Spin 1 f ctx 0 = None /\
      forall extra, Spin (2 + extra) f ctx 0 = Some (f, 2%nat :: 1%nat :: ctx, None).
Proof.
  apply (Spin_two_state_chain 1 2 0 1 (cons 1%nat) (cons 2%nat)); done.
Defined.

End Witnesses.

(** * More on the loop of [Spin] *)
Section SpinMore.

Context {Ctx : Type}.
Implicit Types (f : FSM Ctx) (ctx : Ctx) (i : Input) (tr : list (Outcome Ctx)).
Implicit Types (tbl : gmap Z (State Ctx)).

Lemma closed_lookup tbl k s j (do : Outcome Ctx) :
  closed tbl -> tbl !! k = Some s -> Outcomes s !! j = Some do ->
  is_Some (tbl !! Outcome_State do).
Proof. intros Hcl Hs Hdo. exact (Hcl k s Hs j do Hdo). Qed.

(** Fewer iterations than the chain has links do not get to its end. *)
Lemma Spin_short fuel f ctx i tr cur' ctx' i' :
  chain (states f) (current f, ctx, i) tr (cur', ctx', i') ->
  (fuel < length tr)%nat ->
  Spin fuel f ctx i = None.
Proof.
  revert fuel f ctx i. induction tr as [|do tr IH]; intros fuel f ctx i H Hlt.
  - simpl in Hlt. lia.
  - inversion H as [|? ? c1 ? ? Hl Hc]; subst.
    inversion Hl as [? ? ? s ? ctx1 i1 Hi Hs Hdo Hact]; subst.
    destruct fuel as [|n].
    + simpl. by case_decide.
    + rewrite Spin_iter by done. rewrite Hs, Hdo, Hact. cbn [fst snd].
      apply (IH n (set_current f (Outcome_State do)) ctx1 i1 Hc).
      simpl in Hlt. lia.
Qed.

(** A chain ends where it began, or at a target of the table. *)
Lemma chain_cursor tbl tr cur ctx i cur' ctx' i' :
  chain tbl (cur, ctx, i) tr (cur', ctx', i') ->
  cur' = cur \/ is_target tbl cur'.
Proof.
  revert cur ctx i. induction tr as [|do tr IH]; intros cur ctx i H.
  - inversion H; subst. by left.
  - inversion H as [|? ? c1 ? ? Hl Hc]; subst.
    inversion Hl as [? ? ? s ? ctx1 i1 Hi Hs Hdo Hact]; subst.
    right. destruct (IH _ _ _ Hc) as [->|Ht]; [|done].
    by exists cur, s, i, do.
Qed.

(** X1: when [Spin] returns no error, the outcomes it selected form a chain
    from the initial configuration to the sentinel, of at most [fuel]
    links; the returned cursor and context are the ones this chain
    produced, and nothing else of the machine changed. *)
Theorem Spin_success_follows_chain fuel f ctx i f' ctx' :
  Spin fuel f ctx i = Some (f', ctx', None) ->
  exists tr,
    (length tr <= fuel)%nat /\
    chain (states f) (current f, ctx, i) tr (current f', ctx', NO_INPUT) /\
    f' = set_current f (last_target tr (current f)) /\
    ctx' = run_actions tr ctx.
Proof.
  intros Hr. destruct (Spin_inv _ _ _ _ _ _ _ Hr) as (tr & j & Hc & Hf & ->).
  exists tr. destruct (chain_arrives _ _ _ _ _ _ _ _ Hc) as [Hcur Hctx].
  split.
  - destruct (decide (length tr <= fuel)%nat) as [|Hgt]; [done|].
    rewrite (Spin_short fuel _ _ _ _ _ _ _ Hc) in Hr by lia. done.
  - split; [done|]. split; [|done]. by rewrite <- Hcur.
Qed.

(** X2: whatever [Spin] returns, the cursor is where it was at the call or
    at the target state of an outcome of the table. *)
Theorem Spin_cursor_is_target fuel f ctx i f' ctx' e :
  Spin fuel f ctx i = Some (f', ctx', e) ->
  current f' = current f \/ is_target (states f) (current f').
Proof.
  intros Hr. destruct (Spin_inv _ _ _ _ _ _ _ Hr) as (tr & j & Hc & _ & _).
  exact (chain_cursor _ _ _ _ _ _ _ _ Hc).
Qed.

(** X3: an [ImpossibleStateError] names the returned cursor, which is no
    key of the table; either the cursor was already there at the call, or
    it is the target of an outcome of the table, that is, the definition
    has a dangling target. *)
Theorem Spin_impossible_state_cause fuel f ctx i f' ctx' k :
  Spin fuel f ctx i = Some (f', ctx', Some (ImpossibleStateError k)) ->
  k = current f' /\
  states f !! k = None /\
  (k = current f \/ is_target (states f) k).
Proof.
  intros Hr. destruct (Spin_inv _ _ _ _ _ _ _ Hr) as (tr & j & Hc & _ & Hst).
  inversion Hst as [? ? ? Hj Hnone|]; subst.
  split; [done|]. split; [done|].
  exact (chain_cursor _ _ _ _ _ _ _ _ Hc).
Qed.

(** A closed table keeps the cursor on its keys. *)
Lemma Spin_keeps_closed fuel f ctx i f' ctx' e :
  closed (states f) ->
  is_Some (states f !! current f) ->
  Spin fuel f ctx i = Some (f', ctx', e) ->
  states f' = states f /\
  is_Some (states f' !! current f') /\
  match e with
  | None => True
  | Some err => exists j, err = InvalidInputError (current f') j
  end.
Proof.
  intros Hcl Hcur Hr.
  destruct (Spin_inv _ _ _ _ _ _ _ Hr) as (tr & j & Hc & Hf & He).
  assert (Hst : states f' = states f) by (by rewrite Hf).
  assert (Hkey : is_Some (states f !! current f')).
  { destruct (chain_cursor _ _ _ _ _ _ _ _ Hc) as [->|(key & s & j' & do & Hs & Hdo & <-)];
      [done|]. by eapply closed_lookup. }
  split; [done|]. split; [by rewrite Hst|].
  destruct e as [err|]; [|done].
  inversion He as [? ? ? Hj Hnone|? ? ? s Hj Hs Hdo]; subst.
  - rewrite Hnone in Hkey. by destruct Hkey.
  - by exists j.
Qed.

(** X4: on a closed table with the cursor on one of its keys, whatever
    [Spin] returns leaves the cursor on a key of the (unchanged) table, and
    its error, if any, is an [InvalidInputError] for the returned cursor,
    never an [ImpossibleStateError]. *)
Theorem Spin_closed_table fuel f ctx i f' ctx' e :
  closed (states f) ->
  is_Some (states f !! current f) ->
  Spin fuel f ctx i = Some (f', ctx', e) ->
  states f' = states f /\
  is_Some (states f' !! current f') /\
  match e with
  | None => True
  | Some err => exists j, err = InvalidInputError (current f') j
  end.
Proof. apply Spin_keeps_closed. Qed.

(** X5: no cycle detection.  When a set [P] of configurations contains the
    initial one and every configuration of [P] has a pending input other
    than the sentinel, a state in the table and an outcome for the input,
    and leads into [P] again, then no number of iterations makes [Spin]
    return. *)
Theorem Spin_diverges (P : Z -> Ctx -> Input -> Prop) f ctx i :
  (forall cur c j, P cur c j ->
     j <> NO_INPUT /\
     exists s do,
       states f !! cur = Some s /\ Outcomes s !! j = Some do /\
       P (Outcome_State do) (fst (Outcome_Action do c)) (snd (Outcome_Action do c))) ->
  P (current f) ctx i ->
  forall fuel, Spin fuel f ctx i = None.
Proof.
  intros Hstep HP fuel.
  remember (states f) as tbl eqn:Htbl.
  revert f ctx i HP Htbl. induction fuel as [|n IH]; intros f ctx i HP Htbl.
  - destruct (Hstep _ _ _ HP) as [Hi _]. simpl. by case_decide.
  - destruct (Hstep _ _ _ HP) as (Hi & s & do & Hs & Hdo & HP').
    rewrite Spin_iter by done. rewrite <- Htbl, Hs, Hdo.
    by apply IH.
Qed.

(** X6: on a table whose actions are all pure state changes, one iteration
    is all [Spin] ever needs: it returns the context it was given, with at
    most one transition taken. *)
Theorem Spin_state_change_only f ctx i :
  state_change_only (states f) ->
  exists f' e,
    Spin 1 f ctx i = Some (f', ctx, e) /\
    (current f' = current f \/
     exists s do, states f !! current f = Some s /\ Outcomes s !! i = Some do /\
                  current f' = Outcome_State do /\ e = None).
Proof.
  intros Hpure. destruct (decide (i = NO_INPUT)) as [->|Hi].
  { exists f, None. rewrite Spin_stop. split; [done|by left]. }
  rewrite Spin_iter by done.
  destruct (states f !! current f) as [s|] eqn:Hs; [|eexists _, _; split; [done|by left]].
  destruct (Outcomes s !! i) as [do|] eqn:Hdo; [|eexists _, _; split; [done|by left]].
  rewrite (Hpure _ _ Hs _ _ Hdo ctx). cbn [fst snd]. rewrite Spin_stop.
  eexists _, _. split; [done|]. right. by exists s, do.
Qed.


End SpinMore.

(** * More on [Define], and on machines it returns *)
Section DefineMore.

Context {Ctx : Type}.
Implicit Types (f : FSM Ctx) (s : State Ctx) (sts pre post : list (State Ctx)).

(** What [Define] returned a machine for. *)
Lemma Define_inv sts f :
  Define sts = Returns (Some f, None) ->
  exists s0 rest,
    sts = s0 :: rest /\
    NoDup (Index <$> sts) /\
    current f = Index s0 /\
    (forall s, s ∈ sts -> states f !! Index s = Some s) /\
    (forall k, k ∉ Index <$> sts -> states f !! k = None).
Proof.
  intros Hdef.
  destruct (decide (NoDup (Index <$> sts))) as [Hnd|Hdup].
  - destruct (Define_loop_distinct ∅ sts Hnd) as (m' & Hloop & Hin & Hout);
      [intros; apply lookup_empty|].
    unfold Define in Hdef. rewrite Hloop in Hdef.
    destruct sts as [|s0 rest]; [done|]. cbn in Hdef.
    injection Hdef as <-. exists s0, rest. cbn [states current].
    split; [done|]. split; [done|]. split; [done|]. split; [done|].
    intros k Hk. rewrite (Hout k Hk). apply lookup_empty.
  - destruct (Define_loop_clash ∅ sts) as (pre & s & post & _ & _ & _ & _ & Hloop);
      [by left|].
    unfold Define in Hdef. by rewrite Hloop in Hdef.
Qed.

(** Every entry of the table of a machine [Define] returned is a supplied
    state, under its own index. *)
Lemma Define_lookup_inv sts f k s :
  Define sts = Returns (Some f, None) ->
  states f !! k = Some s -> Index s = k /\ s ∈ sts.
Proof.
  intros (s0 & rest & _ & _ & _ & Hin & Hout)%Define_inv Hk.
  destruct (decide (k ∈ Index <$> sts)) as [Hel|Hnel].
  - apply list_elem_of_fmap in Hel as (s' & -> & Hs').
    rewrite (Hin s' Hs') in Hk. by injection Hk as <-.
  - by rewrite (Hout k Hnel) in Hk.
Qed.

(** X8: the machine [Define] returns has its cursor on a key of its table;
    the keys of the table are exactly the indices of the supplied states,
    which are pairwise distinct, and each key holds the supplied state of
    that index. *)
Theorem Define_machine_invariants sts f :
  Define sts = Returns (Some f, None) ->
  NoDup (Index <$> sts) /\
  is_Some (states f !! current f) /\
  (forall k, is_Some (states f !! k) <-> k ∈ Index <$> sts) /\
  (forall k s, states f !! k = Some s -> Index s = k /\ s ∈ sts).
Proof.
  intros Hdef.
  assert (Hfind := fun k s => Define_lookup_inv sts f k s Hdef).
  destruct (Define_inv _ _ Hdef) as (s0 & rest & -> & Hnd & Hcur & Hin & Hout).
  split; [done|]. split.
  { rewrite Hcur, (Hin s0); [by eexists|left]. }
  split; [|done]. intros k. split.
  - intros [s Hk]. destruct (Hfind k s Hk) as [<- Hs]. by apply elem_of_Index.
  - intros (s & -> & Hs)%list_elem_of_fmap. rewrite (Hin s Hs). by eexists.
Qed.

(** X9: [Define] returns an error only for a real clash: no machine comes
    with it, and it is a [ClashingStateError] for the index of a state
    that an earlier state of the list has too. *)
Theorem Define_error_is_clash sts o e :
  Define sts = Returns (o, Some e) ->
  o = None /\
  exists pre s post,
    sts = pre ++ s :: post /\
    Index s ∈ Index <$> pre /\
    e = ClashingStateError (Index s).
Proof.
  intros Hdef.
  destruct (decide (NoDup (Index <$> sts))) as [Hnd|Hdup].
  - destruct (Define_loop_distinct ∅ sts Hnd) as (m' & Hloop & _);
      [intros; apply lookup_empty|].
    unfold Define in Hdef. rewrite Hloop in Hdef. by destruct sts.
  - destruct (Define_loop_clash ∅ sts) as (pre & s & post & Heq & _ & _ & Hwhy & Hloop);
      [by left|].
    unfold Define in Hdef. rewrite Hloop in Hdef. injection Hdef as <- <-.
    split; [done|]. exists pre, s, post. split; [done|]. split; [|done].
    destruct Hwhy as [Hsome|Hin]; [|done].
    rewrite lookup_empty in Hsome. by destruct Hsome.
Qed.

(** X10: the order of the states only decides the initial cursor: for a
    reordered list [Define] returns a machine again, with the same table. *)
Theorem Define_permutation sts sts' f :
  sts ≡ₚ sts' ->
  Define sts = Returns (Some f, None) ->
  exists f', Define sts' = Returns (Some f', None) /\ states f' = states f.
Proof.
  intros Hperm (s0 & rest & Heq & Hnd & _ & Hin & Hout)%Define_inv.
  assert (Hnd' : NoDup (Index <$> sts')) by (by rewrite <- Hperm).
  destruct (Define_loop_distinct ∅ sts' Hnd') as (m' & Hloop & Hin' & Hout');
    [intros; apply lookup_empty|].
  destruct sts' as [|s0' rest'].
  { apply Permutation_nil_r in Hperm. by rewrite Hperm in Heq. }
  eexists. split; [unfold Define; by rewrite Hloop|]. cbn [states].
  apply map_eq. intros k.
  destruct (decide (k ∈ Index <$> sts)) as [Hel|Hnel].
  - apply list_elem_of_fmap in Hel as (s & -> & Hs).
    rewrite (Hin s Hs). apply Hin'. by rewrite <- Hperm.
  - rewrite (Hout k Hnel), Hout', lookup_empty; [done|]. by rewrite <- Hperm.
Qed.

(** States whose outcomes all lead to indices of the list make a closed
    table. *)
Lemma Define_closed sts f :
  Define sts = Returns (Some f, None) ->
  targets_defined sts ->
  closed (states f).
Proof.
  intros Hdef Htd k s Hk j do Hdo.
  destruct (Define_lookup_inv _ _ _ _ Hdef Hk) as [_ Hs].
  unfold targets_defined in Htd. rewrite Forall_forall in Htd.
  specialize (Htd s Hs j do Hdo).
  apply list_elem_of_fmap in Htd as (s' & -> & Hs').
  destruct (Define_inv _ _ Hdef) as (_ & _ & _ & _ & _ & Hin & _).
  rewrite (Hin s' Hs'). by eexists.
Qed.

Lemma Define_cursor_key sts f :
  Define sts = Returns (Some f, None) -> is_Some (states f !! current f).
Proof.
  intros (s0 & rest & -> & _ & Hcur & Hin & _)%Define_inv.
  rewrite Hcur, (Hin s0); [by eexists|left].
Qed.

(** Calls of [Spin] keep the closed table and the cursor on its keys. *)
Lemma after_spins_closed f0 f :
  closed (states f0) ->
  is_Some (states f0 !! current f0) ->
  after_spins f0 f ->
  states f = states f0 /\ is_Some (states f !! current f).
Proof.
  intros Hcl Hcur. induction 1 as [|f fuel ctx i f' ctx' e _ [Hst Hkey] Hr]; [done|].
  rewrite <- Hst in Hcl.
  destruct (Spin_keeps_closed _ _ _ _ _ _ _ Hcl Hkey Hr) as (Hst' & Hkey' & _).
  split; [congruence|done].
Qed.

(** X11: on a machine that [Define] returned for states whose outcomes all
    lead to indices of the list, no sequence of [Spin] calls ever gives an
    [ImpossibleStateError]: after any calls that returned, a further call
    that returns leaves the cursor on a key of the table, and its error, if
    any, is an [InvalidInputError] for that cursor. *)
Theorem Define_never_impossible sts f0 f fuel ctx i f' ctx' e :
  Define sts = Returns (Some f0, None) ->
  targets_defined sts ->
  after_spins f0 f ->
  Spin fuel f ctx i = Some (f', ctx', e) ->
  is_Some (states f' !! current f') /\
  match e with
  | None => True
  | Some err => exists j, err = InvalidInputError (current f') j
  end.
Proof.
  intros Hdef Htd Hafter Hr.
  assert (Hcl := Define_closed _ _ Hdef Htd).
  destruct (after_spins_closed _ _ Hcl (Define_cursor_key _ _ Hdef) Hafter) as [Hst Hkey].
  rewrite <- Hst in Hcl.
  by destruct (Spin_keeps_closed _ _ _ _ _ _ _ Hcl Hkey Hr) as (_ & ? & ?).
Qed.

End DefineMore.

(** * The name tables *)
Section Names.

Context {Ctx : Type}.
Implicit Types (f : FSM Ctx) (ctx : Ctx) (i : Input).

(** X12: the labels attached with [SetLogger] are what [getStateName] and
    [getInputName] answer after [Spin] ran on the machine, whatever it
    returned; a key without a label gives the empty string. *)
Theorem names_survive_Spin fuel f (sts inputs : gmap Z string) ctx i f' ctx' e :
  Spin fuel (SetLogger f sts inputs) ctx i = Some (f', ctx', e) ->
  (forall k, getStateName f' k = default EmptyString (sts !! k)) /\
  (forall j, getInputName f' j = default EmptyString (inputs !! j)).
Proof.
  intros Hr. apply Spin_frame in Hr.
  unfold getStateName, getInputName. rewrite Hr. cbn [set_current SetLogger stateNames inputNames].
  split; [intros k; by destruct (sts !! k)|intros j; by destruct (inputs !! j)].
Qed.

End Names.

(** * The error messages *)
Section Messages.

Lemma pretty_N_go_chars x s :
  Forall (.∈ decimal_chars) (chars s) ->
  Forall (.∈ decimal_chars) (chars (pretty_N_go x s)).
Proof.
  revert s. induction (N.lt_wf_0 x) as [x _ IH]; intros s Hs.
  assert (x = 0 ∨ 0 < x)%N as [->|?] by lia.
  - by rewrite pretty_N_go_0.
  - rewrite pretty_N_go_step by done. apply IH.
    { by apply N.div_lt. }
    cbn. constructor; [|done].
    unfold pretty_N_char. repeat case_match; by apply (bool_decide_unpack _).
Qed.

(** A rendered integer consists of digits and the minus sign. *)
Lemma pretty_Z_chars (z : Z) : Forall (.∈ decimal_chars) (chars (pretty z)).
Proof.
  assert (HN : forall n : N, Forall (.∈ decimal_chars) (chars (pretty n))).
  { intros n. unfold pretty, pretty_N. case_decide.
    - cbn. constructor; [|constructor]. by apply (bool_decide_unpack _).
    - apply pretty_N_go_chars. constructor. }
  destruct z as [|p|p]; unfold pretty, pretty_Z.
  - cbn. constructor; [|constructor]. by apply (bool_decide_unpack _).
  - apply HN.
  - cbn. constructor; [by apply (bool_decide_unpack _)|]. apply HN.
Qed.

Lemma pretty_Z_no_char (z : Z) (c : ascii) :
  c ∉ decimal_chars -> c ∉ chars (pretty z).
Proof.
  intros Hc Hin. apply Hc.
  by apply (proj1 (Forall_forall _ _) (pretty_Z_chars z)).
Qed.

(** A separator that no string before it contains splits in one way. *)
Lemma split_at_separator (sep : ascii) (p p' r r' : string) :
  sep ∉ chars p -> sep ∉ chars p' ->
  p +:+ String sep r = p' +:+ String sep r' ->
  p = p' /\ r = r'.
Proof.
  revert p'. induction p as [|a p IH]; intros [|a' p'] Hp Hp' Heq; cbn in *.
  - by injection Heq as ->.
  - injection Heq as -> _. exfalso. apply Hp'. left.
  - injection Heq as -> _. exfalso. apply Hp. left.
  - injection Heq as -> Heq.
    assert (Hq : sep ∉ chars p) by (intros H; apply Hp; by right).
    assert (Hq' : sep ∉ chars p') by (intros H; apply Hp'; by right).
    by destruct (IH p' Hq Hq' Heq) as [-> ->].
Qed.

Lemma comma_no_decimal : ","%char ∉ decimal_chars.
Proof. by apply (bool_decide_unpack _). Qed.

Lemma paren_no_decimal : ")"%char ∉ decimal_chars.
Proof. by apply (bool_decide_unpack _). Qed.

(** The messages as the test suite logs them. *)
Example Error_messages :
  Error (InvalidInputError 0 2)
    = "input invalid in current state.  (State: 0, Input: 2)" /\
  Error (ImpossibleStateError 2) = "FSM in impossible state: 2" /\
  Error (ClashingStateError (-7))
    = "attempt to define FSM with clashing states. Index: -7".
Proof. repeat split; reflexivity. Qed.

(** X13: the message tells the error: two errors with the same message are
    of the same kind and carry the same state and input. *)
Theorem Error_inj e1 e2 : Error e1 = Error e2 -> e1 = e2.
Proof.
  destruct e1 as [a b|a|a], e2 as [a' b'|a'|a']; cbn; intros Heq; try discriminate.
  - injection Heq as Heq.
    apply (split_at_separator ","%char) in Heq as [Ha Heq];
      [|apply pretty_Z_no_char, comma_no_decimal..].
    apply (inj pretty) in Ha as ->.
    injection Heq as Heq.
    apply (split_at_separator ")"%char) in Heq as [Hb _];
      [|apply pretty_Z_no_char, paren_no_decimal..].
    by apply (inj pretty) in Hb as ->.
  - injection Heq as Heq. f_equal. by apply (inj pretty).
  - injection Heq as Heq. f_equal. by apply (inj pretty).
Qed.

End Messages.

(** * The further properties on the tables of the test suite *)
Section MoreWitnesses.

Import Tests.

(** [TestChain] ran three transitions. *)
Lemma Spin_success_follows_chain_witness :
  Spin 3 chain_fsm h0 test_input_1
    = Some (set_current chain_fsm test_state_3, mkHits true true true, None) /\
  exists tr,
    (length tr <= 3)%nat /\
    chain (states chain_fsm) (current chain_fsm, h0, test_input_1) tr
          (test_state_3, mkHits true true true, NO_INPUT) /\
    set_current chain_fsm test_state_3
      = set_current chain_fsm (last_target tr (current chain_fsm)) /\
    mkHits true true true = run_actions tr h0.
Proof.
  assert (Hr : Spin 3 chain_fsm h0 test_input_1
                 = Some (set_current chain_fsm test_state_3, mkHits true true true, None))
    by reflexivity.
  split; [exact Hr|].
  exact (Spin_success_follows_chain _ _ _ _ _ _ Hr).
Defined.

Lemma Spin_cursor_is_target_witness :
  Spin 3 chain_fsm h0 test_input_1
    = Some (set_current chain_fsm test_state_3, mkHits true true true, None) /\
  (test_state_3 = test_state_1 \/ is_target (states chain_fsm) test_state_3).
Proof.
  assert (Hr : Spin 3 chain_fsm h0 test_input_1
                 = Some (set_current chain_fsm test_state_3, mkHits true true true, None))
    by reflexivity.
  split; [exact Hr|].
  exact (Spin_cursor_is_target _ _ _ _ _ _ _ Hr).
Defined.

(** The dangling target of [dangling_fsm] shows in one call. *)
Lemma Spin_impossible_state_cause_witness :
  Spin 2 dangling_fsm h0 test_input_1
    = Some (set_current dangling_fsm test_state_2, mkHits true false false,
            Some (ImpossibleStateError test_state_2)) /\
  test_state_2 = test_state_2 /\
  states dangling_fsm !! test_state_2 = None /\
  (test_state_2 = test_state_1 \/ is_target (states dangling_fsm) test_state_2).
Proof.
  assert (Hr : Spin 2 dangling_fsm h0 test_input_1
                 = Some (set_current dangling_fsm test_state_2, mkHits true false false,
                         Some (ImpossibleStateError test_state_2)))
    by reflexivity.
  split; [exact Hr|].
  exact (Spin_impossible_state_cause _ _ _ _ _ _ _ Hr).
Defined.

(** The table of [TestChain] is closed. *)
Lemma Spin_closed_table_witness :
  closed (states chain_fsm) /\
  is_Some (states chain_fsm !! current chain_fsm) /\
  is_Some (states chain_fsm !! test_state_3).
Proof.
  assert (Hcl : closed (states chain_fsm))
    by (apply (bool_decide_unpack _); vm_compute; exact I).
  assert (Hkey : is_Some (states chain_fsm !! current chain_fsm))
    by (eexists; reflexivity).
  assert (Hr : Spin 3 chain_fsm h0 test_input_1
                 = Some (set_current chain_fsm test_state_3, mkHits true true true, None))
    by reflexivity.
  split; [exact Hcl|]. split; [exact Hkey|].
  exact (proj1 (proj2 (Spin_closed_table _ _ _ _ _ _ _ Hcl Hkey Hr))).
Defined.

(** The counting self-loop never returns. *)
Lemma Spin_diverges_witness :
  Spin 1000 loop_fsm 0%nat test_input_1 = None.
Proof.
  apply (Spin_diverges (fun cur _ j => cur = test_state_1 /\ j = test_input_1)
           loop_fsm 0%nat test_input_1).
  - intros cur c j [-> ->]. split; [done|].
    exists loop_state, (mkOutcome test_state_1 (fun n : nat => (S n, test_input_1))).
    split; [reflexivity|]. split; [reflexivity|]. split; reflexivity.
  - split; reflexivity.
Defined.

(** The two-state table has [NO_ACTION] only. *)
Lemma Spin_state_change_only_witness :
  state_change_only (states (@two_fsm unit)) /\
  exists f' e,
    Spin 1 (@two_fsm unit) tt test_input_1 = Some (f', tt, e) /\
    (current f' = current (@two_fsm unit) \/
     exists s do, states (@two_fsm unit) !! current (@two_fsm unit) = Some s /\
                  Outcomes s !! test_input_1 = Some do /\
                  current f' = Outcome_State do /\ e = None).
Proof.
  assert (Hp : state_change_only (states (@two_fsm unit))).
  { unfold state_change_only, two_fsm, two_state1, two_state2, outcomes. cbn.
    repeat (apply map_Forall_insert_2 || apply map_Forall_empty);
      cbn; repeat (apply map_Forall_insert_2 || apply map_Forall_empty); done. }
  split; [exact Hp|].
  exact (Spin_state_change_only two_fsm tt test_input_1 Hp).
Defined.

Lemma Define_machine_invariants_witness :
  Define [@two_state1 unit; two_state2] = Returns (Some two_fsm, None) /\
  NoDup (Index <$> [@two_state1 unit; two_state2]) /\
  is_Some (states (@two_fsm unit) !! current (@two_fsm unit)) /\
  (forall k, is_Some (states (@two_fsm unit) !! k)
             <-> k ∈ Index <$> [@two_state1 unit; two_state2]) /\
  (forall k s, states (@two_fsm unit) !! k = Some s ->
               Index s = k /\ s ∈ [@two_state1 unit; two_state2]).
Proof.
  assert (Hd : Define [@two_state1 unit; two_state2] = Returns (Some two_fsm, None))
    by reflexivity.
  split; [exact Hd|].
  exact (Define_machine_invariants _ _ Hd).
Defined.

(** [TestStateClash]. *)
Lemma Define_error_is_clash_witness :
  Define [@two_state1 unit; clash_state2]
    = Returns (None, Some (ClashingStateError test_state_1)) /\
  @None (FSM unit) = None /\
  exists pre s post,
    [@two_state1 unit; clash_state2] = pre ++ s :: post /\
    Index s ∈ Index <$> pre /\
    ClashingStateError test_state_1 = ClashingStateError (Index s).
Proof.
  assert (Hd : Define [@two_state1 unit; clash_state2]
                 = Returns (None, Some (ClashingStateError test_state_1)))
    by reflexivity.
  split; [exact Hd|].
  exact (Define_error_is_clash _ _ _ Hd).
Defined.

Lemma Define_permutation_witness :
  [@two_state1 unit; two_state2] ≡ₚ [two_state2; two_state1] /\
  exists f',
    Define [@two_state2 unit; two_state1] = Returns (Some f', None) /\
    states f' = states two_fsm.
Proof.
  assert (Hp : [@two_state1 unit; two_state2] ≡ₚ [two_state2; two_state1])
    by apply perm_swap.
  assert (Hd : Define [@two_state1 unit; two_state2] = Returns (Some two_fsm, None))
    by reflexivity.
  split; [exact Hp|].
  exact (Define_permutation _ _ _ Hp Hd).
Defined.

(** After the chain of [TestChain], input 2 is accepted in state 3. *)
Lemma Define_never_impossible_witness :
  targets_defined [chain_state1; chain_state2; chain_state3] /\
  after_spins chain_fsm (set_current chain_fsm test_state_3) /\
  is_Some (states chain_fsm !! test_state_1).
Proof.
  assert (Hd : Define [chain_state1; chain_state2; chain_state3]
                 = Returns (Some chain_fsm, None)) by reflexivity.
  assert (Ht : targets_defined [chain_state1; chain_state2; chain_state3])
    by (apply (bool_decide_unpack _); vm_compute; exact I).
  assert (Ha : after_spins chain_fsm (set_current chain_fsm test_state_3)).
  { apply (after_spin chain_fsm chain_fsm 3 h0 test_input_1 _ (mkHits true true true) None);
      [apply after_none|reflexivity]. }
  assert (Hr : Spin 1 (set_current chain_fsm test_state_3) h0 test_input_2
                 = Some (set_current chain_fsm test_state_1, h0, None))
    by reflexivity.
  split; [exact Ht|]. split; [exact Ha|].
  exact (proj1 (Define_never_impossible _ _ _ _ _ _ _ _ _ Hd Ht Ha Hr)).
Defined.

Lemma names_survive_Spin_witness :
  (forall k, getStateName (SetLogger (@two_fsm unit) {[test_state_1 := "idle"]} ∅) k
             = default EmptyString (({[test_state_1 := "idle"]} : gmap Z string) !! k)) /\
  (forall j, getInputName (SetLogger (@two_fsm unit) {[test_state_1 := "idle"]} ∅) j
             = default EmptyString ((∅ : gmap Z string) !! j)).
Proof.
  assert (Hr : Spin 1 (SetLogger (@two_fsm unit) {[test_state_1 := "idle"]} ∅) tt test_input_3
                 = Some (SetLogger (@two_fsm unit) {[test_state_1 := "idle"]} ∅, tt,
                         Some (InvalidInputError test_state_1 test_input_3)))
    by reflexivity.
  exact (names_survive_Spin _ _ _ _ _ _ _ _ _ Hr).
Defined.

Lemma Error_inj_witness :
  InvalidInputError 0 2 = InvalidInputError (1 - 1) (1 + 1).
Proof. apply Error_inj. reflexivity. Defined.

End MoreWitnesses.
